(** * A shallow embedding of kt::async_queue and kt::locker_t

    Sources: [async_queue.hpp], [locker.hpp], [lockable.hpp].

    Every public member function of [async_queue] is a critical section
    guarded by [m_mutex]; we model each call as one atomic transition of the
    queue object in a small state/exception monad.  The mutex is the flag
    [m_held] (a [scoped_lock]/[unique_lock] sets it on entry and clears it on
    every exit path, exceptions included), the condition variable [m_cv] is
    the list of threads parked in [wait], the list of threads woken by a
    notification and the log of [notify_one]/[notify_all] calls.  A call that
    would have to wait (for the mutex, or in [m_cv.wait]) ends in [Blocked];
    a parked consumer later resumes through [pop_resume].  Calls of [T]'s
    constructors may throw: the outcome of constructing an item in [emplace]
    or of moving it in a bulk push, and of the two moves of the front item in
    [pop], are arguments of the call. *)

From Stdlib Require Import List Bool Arith Lia.
Import ListNotations.

(** Notifications issued on [m_cv]. *)
Inductive note := NotifyOne | NotifyAll.

(** [std::condition_variable m_cv]: thread ids parked in [wait], thread ids
    woken but not yet back from [wait], and the notification calls made. *)
Record cv_state := mkCv {
  cv_waiting : list nat;
  cv_woken : list nat;
  cv_notes : list note
}.

(** ** kt::locker_t and kt::locked_t (locker.hpp)

    The tuple [std::tuple<T...>] is a list of dynamically typed values over
    a small universe of field types.  A reference returned by an accessor
    points into the locker's own tuple: it is the element index, together
    with its constness.  Member templates that do not exist for a given
    specialization, and [std::get<U>] on a type that does not occur exactly
    once, are ill-formed in C++; the model answers [None] for them. *)
Module Locker.

Inductive ty := TNat | TBool | TList.

Definition denote (t : ty) : Type :=
  match t with TNat => nat | TBool => bool | TList => list nat end.

Definition ty_eqb (a b : ty) : bool :=
  match a, b with
  | TNat, TNat | TBool, TBool | TList, TList => true
  | _, _ => false
  end.

Record value := mkValue { vty : ty; vval : denote vty }.

(** [locker_t<M, T...>]: [mutable lockable_t<M> mutex] (held or not) and
    [std::tuple<T...> tuple]. *)
Record locker_t := mkLocker { mutex_held : bool; tuple : list value }.

Definition field_types (l : locker_t) : list ty := map vty (tuple l).

(** [T&] / [T const&] into the locker's tuple. *)
Record ref := mkRef { ref_index : nat; ref_const : bool }.

(** The specialization of [locked_t] that [lock()] returns: the primary
    template or [T const...] (a reference to the whole tuple), or, for a
    single field, [locked_t<L, M, T>] / [locked_t<L, M, T const>] holding
    [std::get<T>(t)]. *)
Inductive locked_t :=
| LockedTuple (is_const : bool)
| LockedSingle (is_const : bool) (r : ref).

(** [lock()] ([is_const = false]) and [lock() const] ([is_const = true]):
    the accessor's constructor acquires the mutex; a held mutex blocks
    ([None]). *)
Definition lock (is_const : bool) (l : locker_t) : option (locked_t * locker_t) :=
  if mutex_held l then None
  else
    let acc := match tuple l with
               | [_] => LockedSingle is_const (mkRef 0 is_const)
               | _ => LockedTuple is_const
               end in
    Some (acc, mkLocker true (tuple l)).

(** Discarding the accessor releases the lock. *)
Definition unlock (l : locker_t) : locker_t := mkLocker false (tuple l).

Definition count_ty (u : ty) (ts : list ty) : nat := length (filter (ty_eqb u) ts).

Fixpoint index_ty (u : ty) (ts : list ty) : option nat :=
  match ts with
  | [] => None
  | t :: ts' => if ty_eqb u t then Some 0
                else option_map S (index_ty u ts')
  end.

(** [get<U>()]: [std::get<U>(tuple)]. *)
Definition get_type (acc : locked_t) (l : locker_t) (u : ty) : option ref :=
  match acc with
  | LockedTuple c =>
      if Nat.eqb (count_ty u (field_types l)) 1 then
        option_map (fun i => mkRef i c) (index_ty u (field_types l))
      else None
  | LockedSingle _ _ => None
  end.

(** [get<I>()]: [std::get<I>(tuple)]. *)
Definition get_index (acc : locked_t) (l : locker_t) (i : nat) : option ref :=
  match acc with
  | LockedTuple c => if i <? length (tuple l) then Some (mkRef i c) else None
  | LockedSingle _ _ => None
  end.

(** [get()] of the single-value specializations. *)
Definition get_single (acc : locked_t) : option ref :=
  match acc with
  | LockedSingle _ r => Some r
  | LockedTuple _ => None
  end.

(** Reading through a reference. *)
Definition deref (l : locker_t) (r : ref) : option value :=
  nth_error (tuple l) (ref_index r).

Fixpoint replace_nth (i : nat) (v : value) (vs : list value) : list value :=
  match i, vs with
  | _, [] => []
  | 0, _ :: vs' => v :: vs'
  | S i', w :: vs' => w :: replace_nth i' v vs'
  end.

(** Assigning through a reference: ill-formed through a [const&] or with a
    value of another type. *)
Definition assign (l : locker_t) (r : ref) (v : value) : option locker_t :=
  if ref_const r then None
  else match nth_error (tuple l) (ref_index r) with
       | Some old => if ty_eqb (vty old) (vty v)
                     then Some (mkLocker (mutex_held l) (replace_nth (ref_index r) v (tuple l)))
                     else None
       | None => None
       end.

End Locker.

(** The effect of [notify_one] and [notify_all] on the condition variable.
    Which waiter [notify_one] picks is unspecified; we take the oldest. *)
Definition cv_notify_one (c : cv_state) : cv_state :=
  match cv_waiting c with
  | [] => mkCv [] (cv_woken c) (cv_notes c ++ [NotifyOne])
  | t :: ws => mkCv ws (cv_woken c ++ [t]) (cv_notes c ++ [NotifyOne])
  end.

Definition cv_notify_all (c : cv_state) : cv_state :=
  mkCv [] (cv_woken c ++ cv_waiting c) (cv_notes c ++ [NotifyAll]).

Module AsyncQueue.
Section Model.

(** [T] is the item type; [exn] the exceptions its constructors may throw. *)
Variable T : Type.
Variable exn : Type.

(** The data members of [async_queue<T, Mutex>], in declaration order. *)
Record async_queue := mkQueue {
  m_cv : cv_state;
  m_queue : list T;          (* std::deque<T> *)
  m_held : bool;             (* lockable_t<Mutex> m_mutex: currently held *)
  m_active : bool
}.

Definition set_cv (c : cv_state) (s : async_queue) : async_queue :=
  mkQueue c (m_queue s) (m_held s) (m_active s).
Definition set_queue (q : list T) (s : async_queue) : async_queue :=
  mkQueue (m_cv s) q (m_held s) (m_active s).
Definition set_held (h : bool) (s : async_queue) : async_queue :=
  mkQueue (m_cv s) (m_queue s) h (m_active s).
Definition set_active_field (a : bool) (s : async_queue) : async_queue :=
  mkQueue (m_cv s) (m_queue s) (m_held s) a.

(** Result of a call: normal return, an exception propagated to the
    caller, or the calling thread is suspended. *)
Inductive outcome (A : Type) :=
| Done (a : A)
| Raised (e : exn)
| Blocked.
Arguments Done {A}.
Arguments Raised {A}.
Arguments Blocked {A}.

Definition M (A : Type) : Type := async_queue -> outcome A * async_queue.

Definition ret {A} (a : A) : M A := fun s => (Done a, s).
Definition bind {A B} (m : M A) (f : A -> M B) : M B := fun s =>
  match m s with
  | (Done a, s') => f a s'
  | (Raised e, s') => (Raised e, s')
  | (Blocked, s') => (Blocked, s')
  end.
Definition throw {A} (e : exn) : M A := fun s => (Raised e, s).
Definition get : M async_queue := fun s => (Done s, s).
Definition modify (f : async_queue -> async_queue) : M unit :=
  fun s => (Done tt, f s).

Local Notation "x <- m ;; k" := (bind m (fun x => k))
  (at level 61, m at next level, right associativity).
Local Notation "m ;;; k" := (bind m (fun _ => k))
  (at level 61, right associativity).

(** [auto lock = m_mutex.lock()] (scoped_lock or unique_lock): the guard is
    released on every exit of the scope, normal or exceptional; a thread
    that finds the mutex held waits for it. *)
Definition with_lock {A} (body : M A) : M A := fun s =>
  if m_held s then (Blocked, s)
  else let '(r, s') := body (set_held true s) in (r, set_held false s').

(** [m_cv.notify_one()]: wakes one parked thread, if any. *)
Definition notify_one : M unit := modify (fun s => set_cv (cv_notify_one (m_cv s)) s).

(** [m_cv.notify_all()]: wakes every parked thread. *)
Definition notify_all : M unit := modify (fun s => set_cv (cv_notify_all (m_cv s)) s).

(** [m_cv.wait(lock, pred)] is [while (!pred()) wait(lock);]: if the
    predicate holds the call returns at once, otherwise the thread parks
    (releasing the lock). *)
Definition cv_wait (tid : nat) (pred : async_queue -> bool) : M unit := fun s =>
  if pred s then (Done tt, s)
  else (Blocked, set_cv (mkCv (cv_waiting (m_cv s) ++ [tid]) (cv_woken (m_cv s))
                             (cv_notes (m_cv s))) s).

(** Constructing a [T] from the arguments of [emplace] (or moving an element
    of a bulk container): either a value or an exception. *)
Definition ctor : Type := (exn + T)%type.

Definition construct (c : ctor) : M T :=
  match c with
  | inl e => throw e
  | inr x => ret x
  end.

(** [m_queue.emplace_back(...)]: the element is constructed first and only
    then linked in (deque's strong guarantee at the ends). *)
Definition emplace_back (c : ctor) : M unit :=
  x <- construct c;; modify (fun s => set_queue (m_queue s ++ [x]) s).

Definition is_empty (q : list T) : bool :=
  match q with [] => true | _ => false end.

(** [emplace(U&&... u)] *)
Definition emplace (c : ctor) : M unit :=
  with_lock (s <- get;; if m_active s then emplace_back c else ret tt);;;
  notify_one.

(** [push(T&&)] and [push(T const&)] both call [emplace<T>]. *)
Definition push (c : ctor) : M unit := emplace c.

(** [std::move(ts.begin(), ts.end(), std::back_inserter(m_queue))]: one
    [push_back] per element, front to back. *)
Fixpoint move_back (cs : list ctor) : M unit :=
  match cs with
  | [] => ret tt
  | c :: cs' => emplace_back c;;; move_back cs'
  end.

(** [push(C<T, Args...>&& ts)] *)
Definition push_bulk (cs : list ctor) : M unit :=
  with_lock (s <- get;; if m_active s then move_back cs else ret tt);;;
  notify_all.

(** The wait predicate of [pop]: [!m_queue.empty() || !m_active]. *)
Definition pop_pred (s : async_queue) : bool :=
  negb (is_empty (m_queue s)) || negb (m_active s).

(** [pop] moves the front item twice: into the local [ret] (line 132,
    [auto ret = std::move(m_queue.front())]) and from [ret] into the
    returned [std::optional<T>] (line 134, [return ret]).  Either call of
    [T]'s move constructor may throw; like the outcome of constructing an
    item in [emplace], the outcome of each move is an argument of the call:
    [None] when the move returns (the new object equals its source),
    [Some e] when it throws [e]. *)
Record pop_moves := mkMoves { mv_out : option exn; mv_ret : option exn }.

(** Both moves return. *)
Definition nothrow_moves : pop_moves := mkMoves None None.

(** What [pop] does once past the wait (lines 131-136).  If the first move
    throws, the item is still at the front of the deque; if the second
    throws, [pop_front] has already run and the item is gone. *)
Definition pop_after_wait (mv : pop_moves) : M (option T) :=
  s <- get;;
  if m_active s && negb (is_empty (m_queue s)) then
    match m_queue s with
    | x :: rest =>
        match mv_out mv with
        | Some e => throw e
        | None =>
            modify (set_queue rest);;;
            match mv_ret mv with
            | Some e => throw e
            | None => ret (Some x)
            end
        end
    | [] => ret None
    end
  else ret None.

(** [pop()] called by thread [tid]. *)
Definition pop (tid : nat) (mv : pop_moves) : M (option T) :=
  with_lock (cv_wait tid pop_pred;;; pop_after_wait mv).

(** A woken thread returns into the wait loop of [pop]: it re-acquires the
    mutex and re-checks the predicate. *)
Definition pop_resume (tid : nat) (mv : pop_moves) : M (option T) := fun s =>
  if existsb (Nat.eqb tid) (cv_woken (m_cv s)) && negb (m_held s) then
    pop tid mv (set_cv (mkCv (cv_waiting (m_cv s))
                             (remove Nat.eq_dec tid (cv_woken (m_cv s)))
                             (cv_notes (m_cv s))) s)
  else (Blocked, s).

(** [clear(bool active = false)] *)
Definition clear (a : bool) : M (list T) :=
  ret_q <- with_lock (s <- get;;
                      modify (set_queue []);;;
                      modify (set_active_field a);;;
                      ret (m_queue s));;
  notify_all;;;
  ret ret_q.

(** The default argument of [clear]. *)
Definition clear_default : M (list T) := clear false.

(** [~async_queue()]: the body calls [clear()]; then the members are
    destroyed and the object is gone, so no later call can observe it.  What
    is left to observe is how the destructor ends and the condition
    variable as it is when [m_cv] is destroyed ([~condition_variable]
    requires that no thread be blocked on it then). *)
Definition destroy (s : async_queue) : outcome unit * cv_state :=
  let '(r, s') := clear false s in
  (match r with Done _ => Done tt | Raised e => Raised e | Blocked => Blocked end,
   m_cv s').

(** [empty() const] *)
Definition empty : M bool := with_lock (s <- get;; ret (is_empty (m_queue s))).

(** [active() const] *)
Definition active_get : M bool := with_lock (s <- get;; ret (m_active s)).

(** [active(bool set)]: the notification is issued under the lock. *)
Definition active_set (b : bool) : M unit :=
  with_lock (modify (set_active_field b);;; notify_all).

(** [async_queue() = default]: [m_active = true], empty deque, free mutex,
    no waiter. *)
Definition init : async_queue := mkQueue (mkCv [] [] []) [] false true.

(** ** Client traces

    A trace is a sequence of calls made on the queue by client threads, in
    the order their critical sections ran. *)
Inductive op :=
| OPush (c : ctor)
| OBulk (cs : list ctor)
| OPop (tid : nat) (mv : pop_moves)
| OResume (tid : nat) (mv : pop_moves)
| OClear (a : bool)
| OSetActive (b : bool)
| OEmpty
| OActive.

Inductive reply :=
| RUnit
| RPop (o : option T)
| RClear (l : list T)
| RBool (b : bool).

Definition fmap {A B} (f : A -> B) (m : M A) : M B := x <- m;; ret (f x).

Definition exec_op (o : op) : M reply :=
  match o with
  | OPush c => fmap (fun _ => RUnit) (push c)
  | OBulk cs => fmap (fun _ => RUnit) (push_bulk cs)
  | OPop tid mv => fmap RPop (pop tid mv)
  | OResume tid mv => fmap RPop (pop_resume tid mv)
  | OClear a => fmap RClear (clear a)
  | OSetActive b => fmap (fun _ => RUnit) (active_set b)
  | OEmpty => fmap RBool empty
  | OActive => fmap RBool active_get
  end.

Fixpoint run (ops : list op) (s : async_queue) : list (outcome reply) * async_queue :=
  match ops with
  | [] => ([], s)
  | o :: ops' =>
      let '(r, s1) := exec_op o s in
      let '(rs, s2) := run ops' s1 in
      (r :: rs, s2)
  end.

(** Items handed out to clients: by a [pop] returning a value or by [clear]. *)
Definition delivered_one (r : outcome reply) : list T :=
  match r with
  | Done (RPop (Some x)) => [x]
  | Done (RClear l) => l
  | _ => []
  end.
Definition delivered (rs : list (outcome reply)) : list T :=
  flat_map delivered_one rs.

(** Items offered by the pushes of a trace (whether accepted or not). *)
Definition ctor_items (cs : list ctor) : list T :=
  flat_map (fun c => match c with inr x => [x] | inl _ => [] end) cs.
Definition offered_one (o : op) : list T :=
  match o with
  | OPush c => ctor_items [c]
  | OBulk cs => ctor_items cs
  | _ => []
  end.
Definition offered (ops : list op) : list T := flat_map offered_one ops.

(** Single-producer / single-consumer traces: pushes whose construction
    succeeds, and pops whose moves of the item do not throw. *)
Definition fifo_op (o : op) : bool :=
  match o with
  | OPush (inr _) => true
  | OPop _ (mkMoves None None) | OResume _ (mkMoves None None) => true
  | _ => false
  end.

(** ** Properties *)

Ltac unfold_ops :=
  unfold push, emplace, push_bulk, pop, pop_resume, clear, clear_default,
    destroy, empty, active_get, active_set, with_lock, notify_one, notify_all,
    cv_wait, pop_pred, pop_after_wait, emplace_back, construct, bind, ret,
    get, modify, throw, cv_notify_one, cv_notify_all, set_cv, set_queue, set_held, set_active_field in *;
  simpl in *.

Lemma move_back_shape (cs : list ctor) (s : async_queue) :
  exists pre,
    snd (move_back cs s) = set_queue (m_queue s ++ pre) s /\
    incl pre (ctor_items cs) /\
    (fst (move_back cs s) = Done tt \/ exists e, fst (move_back cs s) = Raised e).
Proof.
  revert s; induction cs as [|c cs IH]; intros s.
  - exists []. destruct s; simpl. rewrite app_nil_r.
    split; [reflexivity | split; [intros x [] | left; reflexivity]].
  - destruct c as [e | x]; simpl.
    + exists []. destruct s; unfold_ops. rewrite app_nil_r.
      split; [reflexivity | split; [intros y [] | right; eauto]].
    + unfold bind at 1, emplace_back, construct, bind, ret, modify.
      destruct (IH (set_queue (m_queue s ++ [x]) s)) as (pre & Hs & Hi & Hr).
      exists (x :: pre).
      destruct (move_back cs (set_queue (m_queue s ++ [x]) s)) as [r s'] eqn:E.
      simpl in *. subst s'. destruct s; unfold set_queue; simpl.
      rewrite <- app_assoc. split; [reflexivity | split].
      * intros y [<- | Hy]; [left; reflexivity | right; now apply Hi].
      * exact Hr.
Qed.

Lemma fmap_fst {A B} (f : A -> B) (m : M A) (s : async_queue) :
  fst (fmap f m s) = match fst (m s) with
                     | Done a => Done (f a)
                     | Raised e => Raised e
                     | Blocked => Blocked
                     end /\
  snd (fmap f m s) = snd (m s).
Proof.
  unfold fmap, bind, ret. destruct (m s) as [[a | e |] s']; split; reflexivity.
Qed.

Lemma emplace_shape (c : ctor) (s : async_queue) :
  m_active (snd (emplace c s)) = m_active s /\
  m_held (snd (emplace c s)) = m_held s /\
  (m_queue (snd (emplace c s)) = m_queue s \/
   exists x, c = inr x /\ m_queue (snd (emplace c s)) = m_queue s ++ [x]).
Proof.
  destruct s as [[w k n] q h a].
  destruct h, a, c as [e | x], w; unfold_ops; repeat split; eauto.
Qed.

Lemma emplace_active (x : T) (s : async_queue) :
  m_held s = false -> m_active s = true ->
  emplace (inr x) s =
  (Done tt, set_cv (cv_notify_one (m_cv s)) (set_queue (m_queue s ++ [x]) s)).
Proof.
  destruct s as [[w k n] q h a]; simpl; intros -> ->. unfold_ops. reflexivity.
Qed.

Lemma push_bulk_shape (cs : list ctor) (s : async_queue) :
  m_active (snd (push_bulk cs s)) = m_active s /\
  m_held (snd (push_bulk cs s)) = m_held s /\
  exists pre, m_queue (snd (push_bulk cs s)) = m_queue s ++ pre /\
              incl pre (ctor_items cs).
Proof.
  destruct s as [[w k n] q h a].
  assert (Hnil : exists pre, q = q ++ pre /\ incl pre (ctor_items cs))
    by (exists []; rewrite app_nil_r; split; [reflexivity | intros y []]).
  destruct h; [unfold_ops; split; [reflexivity | split; [reflexivity | exact Hnil]] |].
  destruct a; [| unfold_ops; split; [reflexivity | split; [reflexivity | exact Hnil]]].
  destruct (move_back_shape cs (mkQueue (mkCv w k n) q true true))
    as (pre & Hs & Hi & _).
  destruct (move_back cs (mkQueue (mkCv w k n) q true true)) as [r s'] eqn:E.
  simpl in Hs; subst s'. unfold_ops. rewrite E.
  destruct r; simpl;
    (split; [reflexivity | split; [reflexivity | exists pre; split; auto]]).
Qed.

Lemma pop_shape (tid : nat) (mv : pop_moves) (s : async_queue) :
  m_active (snd (pop tid mv s)) = m_active s /\
  m_held (snd (pop tid mv s)) = m_held s /\
  match fst (pop tid mv s) with
  | Done (Some x) => m_queue s = x :: m_queue (snd (pop tid mv s))
  | Raised _ => m_queue (snd (pop tid mv s)) = m_queue s \/
                exists x, m_queue s = x :: m_queue (snd (pop tid mv s))
  | _ => m_queue (snd (pop tid mv s)) = m_queue s
  end.
Proof.
  destruct s as [[w k n] q h a], mv as [[e1 |] [e2 |]].
  all: destruct h, a, q; unfold_ops; repeat split; eauto.
Qed.

Lemma pop_resume_shape (tid : nat) (mv : pop_moves) (s : async_queue) :
  m_active (snd (pop_resume tid mv s)) = m_active s /\
  m_held (snd (pop_resume tid mv s)) = m_held s /\
  match fst (pop_resume tid mv s) with
  | Done (Some x) => m_queue s = x :: m_queue (snd (pop_resume tid mv s))
  | Raised _ => m_queue (snd (pop_resume tid mv s)) = m_queue s \/
                exists x, m_queue s = x :: m_queue (snd (pop_resume tid mv s))
  | _ => m_queue (snd (pop_resume tid mv s)) = m_queue s
  end.
Proof.
  destruct s as [[w k n] q h a]. unfold pop_resume, set_cv; simpl.
  destruct (existsb (Nat.eqb tid) k && negb h).
  - exact (pop_shape tid mv (mkQueue (mkCv w (remove Nat.eq_dec tid k) n) q h a)).
  - repeat split.
Qed.

Lemma clear_shape (a : bool) (s : async_queue) :
  m_held (snd (clear a s)) = m_held s /\
  match fst (clear a s) with
  | Done l => l = m_queue s /\ m_queue (snd (clear a s)) = []
  | _ => m_queue (snd (clear a s)) = m_queue s
  end.
Proof.
  destruct s as [[w k n] q h a0]. destruct h; unfold_ops; repeat split.
Qed.

Lemma active_set_shape (b : bool) (s : async_queue) :
  m_held (snd (active_set b s)) = m_held s /\
  m_queue (snd (active_set b s)) = m_queue s.
Proof.
  destruct s as [[w k n] q h a]. destruct h; unfold_ops; repeat split.
Qed.

Lemma getters_pure (s : async_queue) :
  snd (empty s) = s /\ snd (active_get s) = s.
Proof.
  destruct s as [[w k n] q h a]. destruct h; unfold_ops; repeat split.
Qed.

(** Every item a call hands out or leaves in the queue was already in the
    queue or was offered by that call. *)
Lemma exec_op_incl (o : op) (s : async_queue) (x : T) :
  In x (delivered_one (fst (exec_op o s))) \/ In x (m_queue (snd (exec_op o s))) ->
  In x (m_queue s) \/ In x (offered_one o).
Proof.
  intros H.
  destruct o as [c | cs | tid mv | tid mv | a | b | |]; unfold exec_op in H.
  - destruct (fmap_fst (fun _ : unit => RUnit) (push c) s) as [H1 H2].
    rewrite H1, H2 in H. unfold push in H.
    destruct (emplace_shape c s) as (_ & _ & Hq).
    destruct H as [Hd | Hx]; [destruct (fst (emplace c s)); contradiction |].
    destruct Hq as [Hq | (y & -> & Hq)]; rewrite Hq in Hx; [left; exact Hx |].
    apply in_app_iff in Hx. destruct Hx as [Hx | [<- | []]];
      [left; exact Hx | right; left; reflexivity].
  - destruct (fmap_fst (fun _ : unit => RUnit) (push_bulk cs) s) as [H1 H2].
    rewrite H1, H2 in H.
    destruct (push_bulk_shape cs s) as (_ & _ & pre & Hq & Hi).
    destruct H as [Hd | Hx]; [destruct (fst (push_bulk cs s)); contradiction |].
    rewrite Hq in Hx. apply in_app_iff in Hx.
    destruct Hx as [Hx | Hx]; [left; exact Hx | right; apply Hi; exact Hx].
  - destruct (fmap_fst RPop (pop tid mv) s) as [H1 H2]. rewrite H1, H2 in H.
    destruct (pop_shape tid mv s) as (_ & _ & Hp).
    destruct (pop tid mv s) as [[[y |] | e |] s']; simpl in H, Hp; left.
    + rewrite Hp. destruct H as [[<- | []] | H]; [left; reflexivity | right; exact H].
    + destruct H as [[] | H]. rewrite <- Hp. exact H.
    + destruct H as [[] | H].
      destruct Hp as [Hp | [y Hp]]; [rewrite <- Hp; exact H | rewrite Hp; right; exact H].
    + destruct H as [[] | H]. rewrite <- Hp. exact H.
  - destruct (fmap_fst RPop (pop_resume tid mv) s) as [H1 H2]. rewrite H1, H2 in H.
    destruct (pop_resume_shape tid mv s) as (_ & _ & Hp).
    destruct (pop_resume tid mv s) as [[[y |] | e |] s']; simpl in H, Hp; left.
    + rewrite Hp. destruct H as [[<- | []] | H]; [left; reflexivity | right; exact H].
    + destruct H as [[] | H]. rewrite <- Hp. exact H.
    + destruct H as [[] | H].
      destruct Hp as [Hp | [y Hp]]; [rewrite <- Hp; exact H | rewrite Hp; right; exact H].
    + destruct H as [[] | H]. rewrite <- Hp. exact H.
  - destruct (fmap_fst RClear (clear a) s) as [H1 H2]. rewrite H1, H2 in H.
    destruct (clear_shape a s) as (_ & Hc).
    destruct (clear a s) as [[l | e |] s']; simpl in H, Hc; left.
    + destruct Hc as [-> Hq]. rewrite Hq in H. destruct H as [H | []]. exact H.
    + rewrite <- Hc. destruct H as [[] | H]. exact H.
    + rewrite <- Hc. destruct H as [[] | H]. exact H.
  - destruct (fmap_fst (fun _ : unit => RUnit) (active_set b) s) as [H1 H2].
    rewrite H1, H2 in H. destruct (active_set_shape b s) as (_ & Hq).
    left. rewrite <- Hq.
    destruct H as [Hd | Hx]; [destruct (fst (active_set b s)); contradiction | exact Hx].
  - destruct (fmap_fst RBool empty s) as [H1 H2]. rewrite H1, H2 in H.
    destruct (getters_pure s) as [He _]. rewrite He in H. left.
    destruct H as [Hd | Hx]; [destruct (fst (empty s)); contradiction | exact Hx].
  - destruct (fmap_fst RBool active_get s) as [H1 H2]. rewrite H1, H2 in H.
    destruct (getters_pure s) as [_ He]. rewrite He in H. left.
    destruct H as [Hd | Hx]; [destruct (fst (active_get s)); contradiction | exact Hx].
Qed.

Lemma run_incl (ops : list op) (s : async_queue) (x : T) :
  In x (delivered (fst (run ops s))) \/ In x (m_queue (snd (run ops s))) ->
  In x (m_queue s) \/ In x (offered ops).
Proof.
  revert s; induction ops as [| o ops IH]; intros s H; simpl in *.
  - destruct H as [[] | H]; left; exact H.
  - pose proof (exec_op_incl o s x) as Hs. pose proof (fun s1 => IH s1) as Hi.
    destruct (exec_op o s) as [r s1]. specialize (Hi s1).
    destruct (run ops s1) as [rs s2]. simpl in *.
    rewrite in_app_iff in *.
    destruct H as [[Hr | Hrs] | Hq].
    + destruct (Hs (or_introl Hr)); [left | right; left]; assumption.
    + destruct (Hi (or_introl Hrs)) as [H1 | H1]; [| right; right; exact H1].
      destruct (Hs (or_intror H1)); [left | right; left]; assumption.
    + destruct (Hi (or_intror Hq)) as [H1 | H1]; [| right; right; exact H1].
      destruct (Hs (or_intror H1)); [left | right; left]; assumption.
Qed.

(** One step of a single-producer trace on an active queue. *)
Lemma fifo_step (o : op) (s : async_queue) :
  m_held s = false -> m_active s = true -> fifo_op o = true ->
  m_held (snd (exec_op o s)) = false /\ m_active (snd (exec_op o s)) = true /\
  delivered_one (fst (exec_op o s)) ++ m_queue (snd (exec_op o s)) =
  m_queue s ++ offered_one o.
Proof.
  intros Hh Ha Hf.
  destruct o as [[e | y] | cs | tid mv | tid mv | a | b | |]; try discriminate Hf;
    unfold exec_op.
  - destruct (fmap_fst (fun _ : unit => RUnit) (push (inr y)) s) as [H1 H2].
    rewrite H1, H2. unfold push. rewrite (emplace_active y s Hh Ha).
    destruct s as [[w k n] q h a]; simpl in *; subst.
    unfold cv_notify_one; destruct w; repeat split.
  - destruct mv as [[e1 |] [e2 |]]; try discriminate Hf.
    destruct s as [[w k n] q h a]; simpl in *; subst.
    destruct q; unfold fmap; unfold_ops; repeat split; rewrite ?app_nil_r; reflexivity.
  - destruct mv as [[e1 |] [e2 |]]; try discriminate Hf.
    destruct s as [[w k n] q h a]; simpl in *; subst.
    unfold fmap; unfold_ops. rewrite andb_true_r.
    destruct (existsb (Nat.eqb tid) k); simpl.
    + destruct q; unfold_ops; repeat split; rewrite ?app_nil_r; reflexivity.
    + rewrite app_nil_r. repeat split.
Qed.

Lemma fifo_run (ops : list op) (s : async_queue) :
  m_held s = false -> m_active s = true -> forallb fifo_op ops = true ->
  delivered (fst (run ops s)) ++ m_queue (snd (run ops s)) = m_queue s ++ offered ops.
Proof.
  revert s; induction ops as [| o ops IH]; intros s Hh Ha Hf; simpl in *.
  - rewrite app_nil_r. reflexivity.
  - apply andb_prop in Hf as [Hf1 Hf2].
    destruct (fifo_step o s Hh Ha Hf1) as (Hh1 & Ha1 & Hq).
    destruct (exec_op o s) as [r s1]. simpl in *.
    specialize (IH s1 Hh1 Ha1 Hf2).
    destruct (run ops s1) as [rs s2]. simpl in *.
    rewrite <- app_assoc, IH, app_assoc, Hq, <- app_assoc. reflexivity.
Qed.

(** C6. A default-constructed [async_queue] is active and empty: its
    members say so, and so do [active()] and [empty()]. *)
Theorem init_active_empty :
  m_active init = true /\ m_queue init = [] /\
  fst (active_get init) = Done true /\ fst (empty init) = Done true.
Proof. repeat split. Qed.

(** C3. While inactive, [push], [emplace] and the bulk [push] return
    normally and leave the item sequence as it was (whatever the items and
    whether or not their construction would throw); [empty()] afterwards
    answers as before. *)
Theorem inactive_pushes_discarded (s : async_queue) :
  m_held s = false -> m_active s = false ->
  (forall c, fst (push c s) = Done tt /\ m_queue (snd (push c s)) = m_queue s /\
             fst (empty (snd (push c s))) = fst (empty s)) /\
  (forall c, fst (emplace c s) = Done tt /\ m_queue (snd (emplace c s)) = m_queue s /\
             fst (empty (snd (emplace c s))) = fst (empty s)) /\
  (forall cs, fst (push_bulk cs s) = Done tt /\
              m_queue (snd (push_bulk cs s)) = m_queue s /\
              fst (empty (snd (push_bulk cs s))) = fst (empty s)).
Proof.
  destruct s as [[w k n] q h a]; simpl; intros -> ->.
  repeat split; intros; unfold_ops; destruct w; reflexivity.
Qed.

(** C4. [clear(a)] returns exactly the items present, in order, empties the
    sequence, sets the active flag to [a] (default [false]) and wakes every
    parked thread; after [clear(true)] the queue is active and a push
    followed by a pop behaves as on a freshly constructed queue, whatever
    the moves of the item in [pop] do: same result, same sequence left, the
    queue still active; when those moves do not throw, the pop hands the
    pushed item back and leaves the queue empty. *)
Theorem clear_returns_residue (a : bool) (s : async_queue) :
  m_held s = false ->
  clear a s = (Done (m_queue s),
               mkQueue (mkCv [] (cv_woken (m_cv s) ++ cv_waiting (m_cv s))
                             (cv_notes (m_cv s) ++ [NotifyAll])) [] false a) /\
  clear_default = clear false /\
  (a = true -> forall (x : T) (tid : nat) (mv : pop_moves),
     let s1 := snd (clear a s) in
     let s2 := snd (push (inr x) s1) in
     let f2 := snd (push (inr x) init) in
     fst (active_get s1) = Done true /\
     fst (push (inr x) s1) = Done tt /\ m_queue s2 = [x] /\
     fst (pop tid mv s2) = fst (pop tid mv f2) /\
     m_queue (snd (pop tid mv s2)) = m_queue (snd (pop tid mv f2)) /\
     m_active (snd (pop tid mv s2)) = true /\
     fst (pop tid nothrow_moves s2) = Done (Some x) /\
     m_queue (snd (pop tid nothrow_moves s2)) = []).
Proof.
  destruct s as [[w k n] q h a0]; simpl; intros ->.
  split; [reflexivity | split; [reflexivity |]].
  intros -> x tid [[e1 |] [e2 |]]; unfold init, nothrow_moves; unfold_ops; repeat split.
Qed.

(** C5. A single-item [emplace] (hence [push]) whose construction throws
    propagates the exception, releases the mutex and leaves the queue as it
    was; in every case the sequence either gains exactly the new item at
    the back or is unchanged, and the active flag is untouched. *)
Theorem emplace_all_or_nothing (c : ctor) (s : async_queue) :
  m_held s = false ->
  (m_active s = true -> forall e, c = inl e -> emplace c s = (Raised e, s)) /\
  m_held (snd (emplace c s)) = false /\
  m_active (snd (emplace c s)) = m_active s /\
  (m_queue (snd (emplace c s)) = m_queue s \/
   exists x, c = inr x /\ m_queue (snd (emplace c s)) = m_queue s ++ [x]) /\
  (forall e, fst (emplace c s) = Raised e -> c = inl e /\ snd (emplace c s) = s).
Proof.
  destruct s as [[w k n] q h a]; simpl; intros ->.
  split; [intros -> e -> ; reflexivity |].
  destruct a, c as [e | x], w; unfold_ops;
    (split; [reflexivity | split; [reflexivity | split;
      [ first [left; reflexivity | right; eexists; split; reflexivity]
      | intros e' He'; inversion He'; subst; split; reflexivity ]]]).
Qed.

(** C9. [push], [emplace], the bulk [push], [pop] (first call or resumed
    after a wake), [empty()] and [active()] never change the active flag;
    a [pop] that returns an item removes the front item and leaves the rest
    of the sequence as it was. *)
Theorem ops_preserve_active (s : async_queue) :
  (forall c, m_active (snd (push c s)) = m_active s) /\
  (forall c, m_active (snd (emplace c s)) = m_active s) /\
  (forall cs, m_active (snd (push_bulk cs s)) = m_active s) /\
  (forall tid mv, m_active (snd (pop tid mv s)) = m_active s) /\
  (forall tid mv, m_active (snd (pop_resume tid mv s)) = m_active s) /\
  m_active (snd (empty s)) = m_active s /\
  m_active (snd (active_get s)) = m_active s /\
  (forall tid mv x s', pop tid mv s = (Done (Some x), s') ->
     exists rest, m_queue s = x :: rest /\ m_queue s' = rest).
Proof.
  destruct s as [[w k n] q h a].
  split; [intros c; destruct h, a, c, w; unfold_ops; reflexivity |].
  split; [intros c; destruct h, a, c, w; unfold_ops; reflexivity |].
  split.
  { intros cs. destruct h, a; unfold_ops; try reflexivity.
    destruct (move_back_shape cs (mkQueue (mkCv w k n) q true true))
      as (pre & Hs & _ & _).
    destruct (move_back cs _) as [r s'] eqn:E; simpl in Hs; subst s'.
    destruct r; unfold_ops; reflexivity. }
  split; [intros tid mv; exact (proj1 (pop_shape tid mv _)) |].
  split; [intros tid mv; exact (proj1 (pop_resume_shape tid mv _)) |].
  split; [destruct h; reflexivity |].
  split; [destruct h; reflexivity |].
  intros tid [[e1 |] [e2 |]] x s' Hp; destruct h, a, q; unfold_ops; inversion Hp; subst.
  eexists; split; reflexivity.
Qed.

(** C2 (amended). Past its wait, [pop] returns an item exactly when the
    queue is active and non-empty and neither move of the front item throws,
    and then it is the front item, removed; it returns "no value" exactly
    when the queue is inactive, non-empty or not, and then without parking
    and without touching the queue; it parks only on an active, empty queue.
    It throws exactly when the queue is active and non-empty and a move of
    the front item throws: from the move out of the deque with the item
    still at the front, from the move into the result with the item already
    removed. *)
Theorem pop_returns_iff (tid : nat) (mv : pop_moves) (s : async_queue) :
  m_held s = false ->
  (forall x s', pop tid mv s = (Done (Some x), s') <->
     m_active s = true /\ mv = nothrow_moves /\
     exists rest, m_queue s = x :: rest /\ s' = set_queue rest s) /\
  (forall s', pop tid mv s = (Done None, s') <-> m_active s = false /\ s' = s) /\
  (pop_pred s = false <-> exists s', pop tid mv s = (Blocked, s')) /\
  (forall e s', pop tid mv s = (Raised e, s') <->
     m_active s = true /\ exists x rest, m_queue s = x :: rest /\
     ((mv_out mv = Some e /\ s' = s) \/
      (mv_out mv = None /\ mv_ret mv = Some e /\ s' = set_queue rest s))).
Proof.
  destruct s as [[w k n] q h a]; simpl; intros ->.
  destruct a, q as [| y q], mv as [[e1 |] [e2 |]]; unfold nothrow_moves; unfold_ops.
  all: repeat match goal with
         | |- _ /\ _ => split
         | |- _ <-> _ => split
         | |- forall _, _ => intro
         | |- _ -> _ => intro
         end.
  all: repeat match goal with
         | H : (_, _) = (_, _) |- _ => injection H as; subst
         | H : exists _, _ |- _ => destruct H
         | H : _ /\ _ |- _ => destruct H
         | H : _ \/ _ |- _ => destruct H
         | H : Done _ = Done _ |- _ => injection H as; subst
         | H : Some _ = Some _ |- _ => injection H as; subst
         | H : Raised _ = Raised _ |- _ => injection H as; subst
         | H : _ :: _ = _ :: _ |- _ => injection H as; subst
         end.
  all: subst; try discriminate; try reflexivity.
  all: try (eexists; reflexivity).
  all: try (eexists; eexists; split; [reflexivity |];
            solve [left; repeat split | right; repeat split]).
  all: try (repeat split; eexists; split; reflexivity).
Qed.

(** C1 (amended). FIFO: in any trace of successful pushes and of pops
    (first calls or resumptions after a wake) whose moves of the item do not
    throw, on an active queue that starts empty, the items returned by the
    pops, followed by the items still queued, are exactly the pushed items
    in push order; so the pops return a prefix of the pushes, in order. *)
Theorem fifo_order (ops : list op) (s : async_queue) :
  m_held s = false -> m_active s = true -> m_queue s = [] ->
  forallb fifo_op ops = true ->
  delivered (fst (run ops s)) ++ m_queue (snd (run ops s)) = offered ops.
Proof.
  intros Hh Ha Hq Hf. rewrite (fifo_run ops s Hh Ha Hf), Hq. reflexivity.
Qed.

(** C10. After [clear(a)] the sequence is empty, a second [clear(b)]
    returns nothing, and whatever any later trace of calls hands out (by
    [pop] or [clear]) was pushed by that trace: an item returned by the
    first [clear] is never handed out again unless pushed anew. *)
Theorem clear_exhaustive (a b : bool) (s : async_queue) (ops : list op) :
  m_held s = false ->
  m_queue (snd (clear a s)) = [] /\
  fst (clear b (snd (clear a s))) = Done [] /\
  (forall x, In x (delivered (fst (run ops (snd (clear a s))))) -> In x (offered ops)).
Proof.
  destruct s as [[w k n] q h a0]; simpl; intros ->.
  split; [reflexivity | split; [reflexivity |]].
  intros x Hx.
  destruct (run_incl ops (snd (clear a (mkQueue (mkCv w k n) q false a0))) x
              (or_introl Hx)) as [[] | H]; exact H.
Qed.

Lemma existsb_In (tid : nat) (l : list nat) :
  In tid l -> existsb (Nat.eqb tid) l = true.
Proof.
  intros H. apply existsb_exists. exists tid. split; [exact H | apply Nat.eqb_refl].
Qed.

(** ** Further properties of the queue *)

Lemma move_back_all (xs : list T) (s : async_queue) :
  move_back (map inr xs) s = (Done tt, set_queue (m_queue s ++ xs) s).
Proof.
  revert s; induction xs as [| x xs IH]; intros s; simpl.
  - rewrite app_nil_r. destruct s; reflexivity.
  - unfold bind at 1, emplace_back, construct, bind, ret, modify.
    rewrite IH. destruct s; unfold set_queue; simpl. rewrite <- app_assoc. reflexivity.
Qed.

Lemma move_back_stop (xs : list T) (e : exn) (rest : list ctor) (s : async_queue) :
  move_back (map inr xs ++ inl e :: rest) s = (Raised e, set_queue (m_queue s ++ xs) s).
Proof.
  revert s; induction xs as [| x xs IH]; intros s; simpl.
  - rewrite app_nil_r. destruct s; reflexivity.
  - unfold bind at 1, emplace_back, construct, bind, ret, modify.
    rewrite IH. destruct s; unfold set_queue; simpl. rewrite <- app_assoc. reflexivity.
Qed.

Lemma move_back_len (cs : list ctor) (s : async_queue) :
  exists pre, snd (move_back cs s) = set_queue (m_queue s ++ pre) s /\
              length pre <= length (ctor_items cs).
Proof.
  revert s; induction cs as [| c cs IH]; intros s.
  - exists []. rewrite app_nil_r. destruct s; split; [reflexivity | simpl; lia].
  - destruct c as [e | x]; simpl.
    + exists []. rewrite app_nil_r. destruct s; split; [reflexivity | simpl; lia].
    + unfold bind at 1, emplace_back, construct, bind, ret, modify.
      destruct (IH (set_queue (m_queue s ++ [x]) s)) as (pre & Hs & Hl).
      exists (x :: pre).
      destruct (move_back cs (set_queue (m_queue s ++ [x]) s)) as [r s'].
      simpl in *. subst s'. destruct s; unfold set_queue; simpl.
      rewrite <- app_assoc. split; [reflexivity | simpl; lia].
Qed.

Lemma push_bulk_len (cs : list ctor) (s : async_queue) :
  m_held (snd (push_bulk cs s)) = m_held s /\
  exists pre, m_queue (snd (push_bulk cs s)) = m_queue s ++ pre /\
              length pre <= length (ctor_items cs).
Proof.
  destruct s as [[w k n] q h a].
  assert (Hnil : exists pre, q = q ++ pre /\ length pre <= length (ctor_items cs))
    by (exists []; rewrite app_nil_r; split; [reflexivity | simpl; lia]).
  destruct h; [unfold_ops; split; [reflexivity | exact Hnil] |].
  destruct a; [| unfold_ops; split; [reflexivity | exact Hnil]].
  destruct (move_back_len cs (mkQueue (mkCv w k n) q true true)) as (pre & Hs & Hl).
  destruct (move_back cs (mkQueue (mkCv w k n) q true true)) as [r s'] eqn:E.
  simpl in Hs; subst s'. unfold_ops. rewrite E.
  destruct r; simpl; (split; [reflexivity | exists pre; split; auto]).
Qed.

Lemma exec_op_len (o : op) (s : async_queue) :
  length (delivered_one (fst (exec_op o s))) + length (m_queue (snd (exec_op o s))) <=
  length (m_queue s) + length (offered_one o).
Proof.
  destruct o as [c | cs | tid mv | tid mv | a | b | |]; unfold exec_op.
  - destruct (fmap_fst (fun _ : unit => RUnit) (push c) s) as [H1 H2].
    rewrite H1, H2. unfold push.
    destruct (emplace_shape c s) as (_ & _ & Hq).
    replace (length (delivered_one _)) with 0 by (destruct (fst (emplace c s)); reflexivity).
    destruct Hq as [-> | (y & -> & ->)]; rewrite ?length_app; simpl; lia.
  - destruct (fmap_fst (fun _ : unit => RUnit) (push_bulk cs) s) as [H1 H2].
    rewrite H1, H2. destruct (push_bulk_len cs s) as (_ & pre & Hq & Hl).
    replace (length (delivered_one _)) with 0 by (destruct (fst (push_bulk cs s)); reflexivity).
    rewrite Hq, length_app. simpl. lia.
  - destruct (fmap_fst RPop (pop tid mv) s) as [H1 H2]. rewrite H1, H2.
    destruct (pop_shape tid mv s) as (_ & _ & Hp).
    destruct (pop tid mv s) as [[[y |] | e |] s']; simpl in *;
      try (destruct Hp as [Hp | [y Hp]]); rewrite Hp; simpl; lia.
  - destruct (fmap_fst RPop (pop_resume tid mv) s) as [H1 H2]. rewrite H1, H2.
    destruct (pop_resume_shape tid mv s) as (_ & _ & Hp).
    destruct (pop_resume tid mv s) as [[[y |] | e |] s']; simpl in *;
      try (destruct Hp as [Hp | [y Hp]]); rewrite Hp; simpl; lia.
  - destruct (fmap_fst RClear (clear a) s) as [H1 H2]. rewrite H1, H2.
    destruct (clear_shape a s) as (_ & Hc).
    destruct (clear a s) as [[l | e |] s']; simpl in *.
    + destruct Hc as [-> ->]. simpl. rewrite ?app_nil_r. lia.
    + rewrite Hc. lia.
    + rewrite Hc. lia.
  - destruct (fmap_fst (fun _ : unit => RUnit) (active_set b) s) as [H1 H2].
    rewrite H1, H2. destruct (active_set_shape b s) as (_ & ->).
    destruct (fst (active_set b s)); simpl; lia.
  - destruct (fmap_fst RBool empty s) as [H1 H2]. rewrite H1, H2.
    rewrite (proj1 (getters_pure s)). destruct (fst (empty s)); simpl; lia.
  - destruct (fmap_fst RBool active_get s) as [H1 H2]. rewrite H1, H2.
    rewrite (proj2 (getters_pure s)). destruct (fst (active_get s)); simpl; lia.
Qed.


(** C7 (code bug). A bulk push whose element move throws after earlier
    elements were appended skips [notify_all]: a thread parked in [pop] on
    the (then empty) queue is neither woken nor able to resume, although
    the queue now holds items and the wait predicate of [pop] holds. *)
Theorem bulk_push_throw_lost_wakeup (tid : nat) (x : T) (xs : list T) (e : exn)
    (rest : list ctor) (mv mv' : pop_moves) (s : async_queue) :
  m_held s = false -> m_active s = true -> m_queue s = [] ->
  ~ In tid (cv_woken (m_cv s)) ->
  let s1 := snd (pop tid mv s) in
  let s2 := snd (push_bulk (map inr (x :: xs) ++ inl e :: rest) s1) in
  fst (pop tid mv s) = Blocked /\
  fst (push_bulk (map inr (x :: xs) ++ inl e :: rest) s1) = Raised e /\
  m_queue s2 = x :: xs /\ pop_pred s2 = true /\
  cv_notes (m_cv s2) = cv_notes (m_cv s) /\
  In tid (cv_waiting (m_cv s2)) /\
  pop_resume tid mv' s2 = (Blocked, s2).
Proof.
  destruct s as [[w k n] q h a]; simpl; intros -> -> -> Hk.
  assert (Hp : pop tid mv (mkQueue (mkCv w k n) [] false true) =
               (Blocked, mkQueue (mkCv (w ++ [tid]) k n) [] false true))
    by (unfold_ops; reflexivity).
  assert (Hm : move_back (map inr (x :: xs) ++ inl e :: rest)
                 (mkQueue (mkCv (w ++ [tid]) k n) [] true true) =
               (Raised e, mkQueue (mkCv (w ++ [tid]) k n) (x :: xs) true true))
    by (rewrite move_back_stop; reflexivity).
  assert (Hb : push_bulk (map inr (x :: xs) ++ inl e :: rest)
                 (mkQueue (mkCv (w ++ [tid]) k n) [] false true) =
               (Raised e, mkQueue (mkCv (w ++ [tid]) k n) (x :: xs) false true)).
  { unfold push_bulk, with_lock, bind, get, ret; cbn -[move_back map app].
    unfold set_held at 1. cbn [m_cv m_queue m_active]. rewrite Hm. reflexivity. }
  cbv zeta. rewrite Hp. simpl fst. simpl snd.
  change (inr x :: map inr xs ++ inl e :: rest) with (map inr (x :: xs) ++ inl e :: rest).
  rewrite Hb. simpl.
  split; [reflexivity |]. split; [reflexivity |]. split; [reflexivity |].
  split; [reflexivity |]. split; [reflexivity |].
  split; [apply in_or_app; right; left; reflexivity |].
  unfold pop_resume; simpl.
  destruct (existsb (Nat.eqb tid) k) eqn:E; [| reflexivity].
  apply existsb_exists in E as (t & Ht & Heq). apply Nat.eqb_eq in Heq; subst t.
  contradiction.
Qed.

(** X: over any trace, the items handed out plus the items left queued
    number at most the items queued at the start plus the items offered by
    the trace's pushes: the queue never duplicates or invents an item. *)
Theorem no_invented_items (ops : list op) (s : async_queue) :
  length (delivered (fst (run ops s))) + length (m_queue (snd (run ops s))) <=
  length (m_queue s) + length (offered ops).
Proof.
  revert s; induction ops as [| o ops IH]; intros s; simpl.
  - lia.
  - pose proof (exec_op_len o s) as Hs. pose proof (fun s1 => IH s1) as Hi.
    destruct (exec_op o s) as [r s1]. specialize (Hi s1).
    destruct (run ops s1) as [rs s2]. simpl in *.
    rewrite !length_app in *. lia.
Qed.

(** X: while another thread holds the mutex, every call blocks and leaves
    the queue untouched. *)
Theorem held_mutex_blocks (o : op) (s : async_queue) :
  m_held s = true -> exec_op o s = (Blocked, s).
Proof.
  destruct s as [[w k n] q h a]; simpl; intros ->.
  destruct o; unfold exec_op, fmap; unfold_ops; try reflexivity.
  rewrite andb_false_r. reflexivity.
Qed.

(** X: every call releases the mutex on every exit path: a trace started
    with the mutex free ends with it free. *)
Theorem run_releases_mutex (ops : list op) (s : async_queue) :
  m_held s = false -> m_held (snd (run ops s)) = false.
Proof.
  revert s; induction ops as [| o ops IH]; intros s Hh; simpl; [exact Hh |].
  assert (H1 : m_held (snd (exec_op o s)) = false).
  { destruct o as [c | cs | tid mv | tid mv | a | b | |]; unfold exec_op.
    - rewrite (proj2 (fmap_fst _ _ s)). unfold push.
      rewrite (proj1 (proj2 (emplace_shape c s))). exact Hh.
    - rewrite (proj2 (fmap_fst _ _ s)). rewrite (proj1 (push_bulk_len cs s)). exact Hh.
    - rewrite (proj2 (fmap_fst _ _ s)). rewrite (proj1 (proj2 (pop_shape tid mv s))). exact Hh.
    - rewrite (proj2 (fmap_fst _ _ s)).
      rewrite (proj1 (proj2 (pop_resume_shape tid mv s))). exact Hh.
    - rewrite (proj2 (fmap_fst _ _ s)). rewrite (proj1 (clear_shape a s)). exact Hh.
    - rewrite (proj2 (fmap_fst _ _ s)). rewrite (proj1 (active_set_shape b s)). exact Hh.
    - rewrite (proj2 (fmap_fst _ _ s)). rewrite (proj1 (getters_pure s)). exact Hh.
    - rewrite (proj2 (fmap_fst _ _ s)). rewrite (proj2 (getters_pure s)). exact Hh. }
  destruct (exec_op o s) as [r s1]. specialize (IH s1 H1).
  destruct (run ops s1) as [rs s2]. exact IH.
Qed.

(** X: a bulk push on an active queue whose elements all move in appends
    them at the back in container order and wakes every parked thread. *)
Theorem push_bulk_all (xs : list T) (s : async_queue) :
  m_held s = false -> m_active s = true ->
  push_bulk (map inr xs) s =
    (Done tt, set_cv (cv_notify_all (m_cv s)) (set_queue (m_queue s ++ xs) s)).
Proof.
  destruct s as [[w k n] q h a]; simpl; intros -> ->.
  unfold push_bulk, with_lock, bind at 1; simpl.
  unfold bind at 1, get; simpl. rewrite move_back_all. reflexivity.
Qed.

(** X: if the move of an element throws, the elements before it stay
    appended, the exception propagates, the mutex is released, and no
    notification is issued. *)
Theorem push_bulk_partial (xs : list T) (e : exn) (rest : list ctor) (s : async_queue) :
  m_held s = false -> m_active s = true ->
  push_bulk (map inr xs ++ inl e :: rest) s = (Raised e, set_queue (m_queue s ++ xs) s).
Proof.
  destruct s as [[w k n] q h a]; simpl; intros -> ->.
  unfold push_bulk, with_lock, bind at 1; simpl.
  unfold bind at 1, get; simpl. rewrite move_back_stop. reflexivity.
Qed.

(** X: the destructor, run while no other thread holds the mutex, returns
    normally, and its [clear()] wakes every thread parked in [pop]: when
    [m_cv] is destroyed no thread is blocked on it, and every thread that
    was parked has been woken. *)
Theorem destroy_wakes_all (s : async_queue) :
  m_held s = false ->
  fst (destroy s) = Done tt /\
  cv_waiting (snd (destroy s)) = [] /\
  (forall tid, In tid (cv_waiting (m_cv s)) -> In tid (cv_woken (snd (destroy s)))) /\
  cv_notes (snd (destroy s)) = cv_notes (m_cv s) ++ [NotifyAll].
Proof.
  destruct s as [[w k n] q h a]; simpl; intros ->.
  unfold destroy; unfold_ops.
  split; [reflexivity |]. split; [reflexivity |].
  split; [intros tid Hin; apply in_or_app; right; exact Hin | reflexivity].
Qed.

(** X: deactivation strands the queued items: they stay queued, [pop]
    (fresh or resumed, whatever its moves would do) returns "no value" and
    leaves them, [clear] still returns them all, and after reactivation a
    [pop] neither parks nor returns "no value": it hands out the front item
    when its moves do not throw. *)
Theorem deactivate_strands_items (tid : nat) (a : bool) (s : async_queue) :
  m_held s = false ->
  m_queue (snd (active_set false s)) = m_queue s /\
  (forall mv, pop tid mv (snd (active_set false s)) = (Done None, snd (active_set false s))) /\
  (forall t mv, In t (cv_woken (m_cv (snd (active_set false s)))) ->
     fst (pop_resume t mv (snd (active_set false s))) = Done None /\
     m_queue (snd (pop_resume t mv (snd (active_set false s)))) = m_queue s) /\
  fst (clear a (snd (active_set false s))) = Done (m_queue s) /\
  (forall x rest, m_queue s = x :: rest ->
     (forall mv, fst (pop tid mv (snd (active_set true (snd (active_set false s))))) <> Done None /\
                 fst (pop tid mv (snd (active_set true (snd (active_set false s))))) <> Blocked) /\
     pop tid nothrow_moves (snd (active_set true (snd (active_set false s)))) =
       (Done (Some x), set_queue rest (snd (active_set true (snd (active_set false s)))))).
Proof.
  destruct s as [[w k n] q h a0]; simpl; intros ->.
  split; [reflexivity |]. split; [intros mv; destruct q; reflexivity |].
  split.
  { intros t mv Hin. unfold_ops. rewrite (existsb_In t _ Hin).
    unfold_ops. destruct q; split; reflexivity. }
  split; [reflexivity |].
  intros x rest ->. split; [| reflexivity].
  intros [[e1 |] [e2 |]]; unfold_ops; split; discriminate.
Qed.

(** X: a [pop] on an active, empty queue parks its thread; a [push] wakes
    it (it is the only waiter), and the resumed [pop] neither parks again
    nor returns "no value": when its moves do not throw it returns the
    pushed item and leaves the queue empty. *)
Theorem push_wakes_parked_pop (tid : nat) (x : T) (mv : pop_moves) (s : async_queue) :
  m_held s = false -> m_active s = true -> m_queue s = [] ->
  cv_waiting (m_cv s) = [] ->
  let s3 := snd (push (inr x) (snd (pop tid mv s))) in
  fst (pop tid mv s) = Blocked /\
  cv_waiting (m_cv (snd (pop tid mv s))) = [tid] /\
  cv_woken (m_cv s3) = cv_woken (m_cv s) ++ [tid] /\
  (forall mv', fst (pop_resume tid mv' s3) <> Blocked /\
               fst (pop_resume tid mv' s3) <> Done None) /\
  fst (pop_resume tid nothrow_moves s3) = Done (Some x) /\
  m_queue (snd (pop_resume tid nothrow_moves s3)) = [].
Proof.
  destruct s as [[w k n] q h a]; simpl; intros -> -> -> ->.
  unfold_ops. split; [reflexivity |]. split; [reflexivity |]. split; [reflexivity |].
  assert (Hin : In tid (k ++ [tid])) by (apply in_or_app; right; left; reflexivity).
  split.
  - intros [[e1 |] [e2 |]]; unfold_ops; rewrite (existsb_In tid _ Hin); unfold_ops;
      split; discriminate.
  - unfold nothrow_moves. rewrite (existsb_In tid _ Hin). unfold_ops. split; reflexivity.
Qed.

(** X: a woken [pop] re-checks its predicate: on a queue that is (again)
    active and empty it parks once more instead of returning. *)
Theorem woken_pop_reparks (tid : nat) (mv : pop_moves) (s : async_queue) :
  m_held s = false -> m_active s = true -> m_queue s = [] ->
  In tid (cv_woken (m_cv s)) ->
  pop_resume tid mv s =
    (Blocked, mkQueue (mkCv (cv_waiting (m_cv s) ++ [tid])
                            (remove Nat.eq_dec tid (cv_woken (m_cv s)))
                            (cv_notes (m_cv s))) [] false true).
Proof.
  destruct s as [[w k n] q h a]; simpl; intros -> -> -> Hin.
  unfold pop_resume; simpl. rewrite (existsb_In tid _ Hin). unfold_ops. reflexivity.
Qed.

End Model.

(** ** Concrete runs, with [nat] items and [nat] exceptions *)

(** An active queue holding [1; 2], with thread 7 parked (as after a past
    wait on an empty queue). *)
Definition q0 : async_queue nat := mkQueue nat (mkCv [7] [] []) [1; 2] false true.

(** The same queue deactivated. *)
Definition q_off : async_queue nat := mkQueue nat (mkCv [7] [] []) [1; 2] false false.

Definition fifo_trace : list (op nat nat) :=
  [OPush nat nat (inr 1); OPush nat nat (inr 2); OPop nat nat 0 (nothrow_moves nat);
   OPush nat nat (inr 3); OPop nat nat 0 (nothrow_moves nat)].

Lemma fifo_order_witness :
  (m_held nat (init nat) = false /\ m_active nat (init nat) = true /\
   m_queue nat (init nat) = [] /\ forallb (fifo_op nat nat) fifo_trace = true) /\
  delivered nat nat (fst (run nat nat fifo_trace (init nat))) ++
    m_queue nat (snd (run nat nat fifo_trace (init nat))) = [1; 2; 3].
Proof.
  split; [repeat split |].
  apply (fifo_order nat nat fifo_trace (init nat)); reflexivity.
Defined.

Lemma pop_returns_iff_witness :
  m_held nat q0 = false /\
  pop nat nat 0 (nothrow_moves nat) q0 = (Done nat (option nat) (Some 1), set_queue nat [2] q0).
Proof.
  split; [reflexivity |].
  apply (proj1 (pop_returns_iff nat nat 0 (nothrow_moves nat) q0 eq_refl) 1 _).
  split; [reflexivity | split; [reflexivity | exists [2]; split; reflexivity]].
Defined.

Lemma inactive_pushes_discarded_witness :
  (m_held nat q_off = false /\ m_active nat q_off = false) /\
  m_queue nat (snd (push_bulk nat nat [inr 5; inl 9] q_off)) = [1; 2].
Proof.
  split; [split; reflexivity |].
  apply (proj2 (proj2 (inactive_pushes_discarded nat nat q_off eq_refl eq_refl))
           [inr 5; inl 9]).
Defined.

Lemma clear_returns_residue_witness :
  m_held nat q0 = false /\ fst (clear nat nat false q0) = Done nat (list nat) [1; 2].
Proof.
  split; [reflexivity |].
  rewrite (proj1 (clear_returns_residue nat nat false q0 eq_refl)). reflexivity.
Defined.

Lemma emplace_all_or_nothing_witness :
  (m_held nat q0 = false /\ m_active nat q0 = true) /\
  emplace nat nat (inl 4) q0 = (Raised nat unit 4, q0).
Proof.
  split; [split; reflexivity |].
  apply (proj1 (emplace_all_or_nothing nat nat (inl 4) q0 eq_refl) eq_refl 4 eq_refl).
Defined.

Lemma clear_exhaustive_witness :
  m_held nat q0 = false /\
  fst (clear nat nat true (snd (clear nat nat false q0))) = Done nat (list nat) [].
Proof.
  split; [reflexivity |].
  apply (proj1 (proj2 (clear_exhaustive nat nat false true q0 [] eq_refl))).
Defined.


Lemma held_mutex_blocks_witness :
  m_held nat (set_held nat true q0) = true /\
  exec_op nat nat (OClear nat nat false) (set_held nat true q0) =
    (Blocked nat (reply nat), set_held nat true q0).
Proof.
  split; [reflexivity |].
  apply held_mutex_blocks. reflexivity.
Defined.

Lemma run_releases_mutex_witness :
  m_held nat q0 = false /\ m_held nat (snd (run nat nat fifo_trace q0)) = false.
Proof.
  split; [reflexivity |]. apply run_releases_mutex. reflexivity.
Defined.

Lemma push_bulk_all_witness :
  (m_held nat q0 = false /\ m_active nat q0 = true) /\
  m_queue nat (snd (push_bulk nat nat (map inr [3; 4]) q0)) = [1; 2; 3; 4].
Proof.
  split; [split; reflexivity |].
  rewrite (push_bulk_all nat nat [3; 4] q0 eq_refl eq_refl). reflexivity.
Defined.

Lemma push_bulk_partial_witness :
  (m_held nat q0 = false /\ m_active nat q0 = true) /\
  push_bulk nat nat (map inr [3] ++ inl 0 :: [inr 4]) q0 =
    (Raised nat unit 0, set_queue nat [1; 2; 3] q0).
Proof.
  split; [split; reflexivity |].
  apply (push_bulk_partial nat nat [3] 0 [inr 4] q0 eq_refl eq_refl).
Defined.

Lemma destroy_wakes_all_witness :
  m_held nat q0 = false /\ In 7 (cv_woken (snd (destroy nat nat q0))).
Proof.
  split; [reflexivity |].
  apply (proj1 (proj2 (proj2 (destroy_wakes_all nat nat q0 eq_refl))) 7). simpl; auto.
Defined.

Lemma deactivate_strands_items_witness :
  m_held nat q0 = false /\
  fst (clear nat nat false (snd (active_set nat nat false q0))) = Done nat (list nat) [1; 2].
Proof.
  split; [reflexivity |].
  apply (deactivate_strands_items nat nat 0 false q0 eq_refl).
Defined.

Lemma push_wakes_parked_pop_witness :
  (m_held nat (init nat) = false /\ m_active nat (init nat) = true /\
   m_queue nat (init nat) = [] /\ cv_waiting (m_cv nat (init nat)) = []) /\
  fst (pop_resume nat nat 4 (nothrow_moves nat)
         (snd (push nat nat (inr 9) (snd (pop nat nat 4 (nothrow_moves nat) (init nat))))))
    = Done nat (option nat) (Some 9).
Proof.
  split; [repeat split |].
  apply (push_wakes_parked_pop nat nat 4 9 (nothrow_moves nat) (init nat)
           eq_refl eq_refl eq_refl eq_refl).
Defined.

Lemma woken_pop_reparks_witness :
  (m_held nat (mkQueue nat (mkCv [] [3] []) [] false true) = false /\
   m_active nat (mkQueue nat (mkCv [] [3] []) [] false true) = true /\
   m_queue nat (mkQueue nat (mkCv [] [3] []) [] false true) = [] /\
   In 3 (cv_woken (m_cv nat (mkQueue nat (mkCv [] [3] []) [] false true)))) /\
  pop_resume nat nat 3 (mkMoves nat (Some 1) None) (mkQueue nat (mkCv [] [3] []) [] false true) =
    (Blocked nat (option nat), mkQueue nat (mkCv [3] [] []) [] false true).
Proof.
  split; [repeat split; simpl; auto |].
  apply (woken_pop_reparks nat nat 3 (mkMoves nat (Some 1) None)
           (mkQueue nat (mkCv [] [3] []) [] false true) eq_refl eq_refl eq_refl). simpl; auto.
Defined.

(** Thread 5 parks on an empty queue; a bulk push of [1; 2] whose third
    element throws while being moved in leaves [1; 2] queued, and thread 5
    cannot resume. *)
Lemma bulk_push_throw_lost_wakeup_witness :
  (m_held nat (init nat) = false /\ m_active nat (init nat) = true /\
   m_queue nat (init nat) = [] /\ ~ In 5 (cv_woken (m_cv nat (init nat)))) /\
  pop_resume nat nat 5 (nothrow_moves nat)
    (snd (push_bulk nat nat (map inr [1; 2] ++ [inl 0])
            (snd (pop nat nat 5 (nothrow_moves nat) (init nat))))) =
  (Blocked nat (option nat),
   snd (push_bulk nat nat (map inr [1; 2] ++ [inl 0])
          (snd (pop nat nat 5 (nothrow_moves nat) (init nat))))).
Proof.
  split; [repeat split; simpl; auto |].
  apply (bulk_push_throw_lost_wakeup nat nat 5 1 [2] 0 [] (nothrow_moves nat) (nothrow_moves nat)
           (init nat) eq_refl eq_refl eq_refl). simpl; auto.
Defined.

(** Two pushes, then a [pop] whose move of the item into its result throws
    ([pop_front] has run), then a [pop] that returns: the first item is
    lost, and the first value a [pop] returns is the second item. *)
Definition lost_trace : list (op nat nat) :=
  [OPush nat nat (inr 1); OPush nat nat (inr 2); OPop nat nat 0 (mkMoves nat None (Some 0));
   OPop nat nat 0 (nothrow_moves nat)].

Lemma pop_move_throw_loses_item :
  delivered nat nat (fst (run nat nat lost_trace (init nat))) = [2] /\
  m_queue nat (snd (run nat nat lost_trace (init nat))) = [] /\
  offered nat nat lost_trace = [1; 2] /\
  ~ (forall (ops : list (op nat nat)) (s : async_queue nat),
       m_held nat s = false -> m_active nat s = true -> m_queue nat s = [] ->
       forallb (fun o => match o with OPush _ _ (inr _) | OPop _ _ _ _ => true | _ => false end) ops
         = true ->
       delivered nat nat (fst (run nat nat ops s)) ++ m_queue nat (snd (run nat nat ops s)) =
       offered nat nat ops).
Proof.
  split; [reflexivity | split; [reflexivity | split; [reflexivity |]]].
  intros H. specialize (H lost_trace (init nat) eq_refl eq_refl eq_refl eq_refl).
  discriminate H.
Qed.

(** On an active, non-empty queue a [pop] whose move of the front item out
    of the deque throws returns neither an item nor "no value": the
    exception propagates, the item stays at the front and the mutex is free. *)
Lemma pop_move_throw_on_active :
  m_active nat q0 = true /\ m_queue nat q0 = [1; 2] /\
  pop nat nat 0 (mkMoves nat (Some 3) None) q0 = (Raised nat (option nat) 3, q0).
Proof. repeat split. Qed.

(** A bulk push whose second element throws while being moved in: the
    first element is appended, the exception propagates, and no
    notification is issued, so thread 7 stays parked next to an item. *)
Lemma bulk_push_throw_no_notify :
  push_bulk nat nat [inr 1; inl 0] (mkQueue nat (mkCv [7] [] []) [] false true) =
    (Raised nat unit 0, mkQueue nat (mkCv [7] [] []) [1] false true) /\
  ~ (forall (cs : list (ctor nat nat)) (s : async_queue nat),
       m_held nat s = false ->
       cv_notes (m_cv nat (snd (push_bulk nat nat cs s))) =
       cv_notes (m_cv nat s) ++ [NotifyAll]).
Proof.
  split; [reflexivity |].
  intros H.
  specialize (H [inr 1; inl 0] (mkQueue nat (mkCv [7] [] []) [] false true) eq_refl).
  discriminate H.
Qed.

End AsyncQueue.

Module LockerFacts.
Import Locker.

Lemma ty_eqb_refl (u : ty) : ty_eqb u u = true.
Proof. destruct u; reflexivity. Qed.

Lemma nth_count (u : ty) (ts : list ty) (i : nat) :
  nth_error ts i = Some u -> 1 <= count_ty u ts.
Proof.
  revert i; induction ts as [| t ts IH]; intros [| i] H; simpl in H; try discriminate.
  - injection H as ->. unfold count_ty; simpl. rewrite ty_eqb_refl. simpl. lia.
  - specialize (IH i H). unfold count_ty in *; simpl.
    destruct (ty_eqb u t); simpl; lia.
Qed.

Lemma index_unique (u : ty) (ts : list ty) (i : nat) :
  count_ty u ts = 1 -> nth_error ts i = Some u -> index_ty u ts = Some i.
Proof.
  revert i; induction ts as [| t ts IH]; intros i Hc H; [destruct i; discriminate |].
  unfold count_ty in Hc; simpl in *.
  destruct (ty_eqb u t) eqn:E.
  - destruct i as [| i]; [reflexivity |].
    simpl in Hc. pose proof (nth_count u ts i H) as Hn. unfold count_ty in Hn. lia.
  - destruct i as [| i].
    + simpl in H. injection H as ->. rewrite ty_eqb_refl in E. discriminate.
    + simpl in H. rewrite (IH i Hc H). reflexivity.
Qed.

Lemma replace_nth_same (i : nat) (v old : value) (vs : list value) :
  nth_error vs i = Some old -> nth_error (replace_nth i v vs) i = Some v.
Proof.
  revert i; induction vs as [| w vs IH]; intros [| i] H; simpl in *;
    try discriminate; [reflexivity | exact (IH i H)].
Qed.

(** C8. For a locker holding a tuple (any number of fields other than
    one), [lock()] and [lock() const] acquire the mutex and return the
    tuple accessor; [get<I>()] is a reference to field [I] for every index
    of the tuple (and exists for no other), [get<U>()] is a reference to
    the one field of type [U]; the mutable and the const accessor refer to
    the same fields; writing through a mutable reference is seen by the
    next read of that field, through either accessor, while the const
    accessor allows no write. *)
Theorem locker_lock_access (is_const : bool) (l : locker_t) :
  mutex_held l = false -> length (tuple l) <> 1 ->
  lock is_const l = Some (LockedTuple is_const, mkLocker true (tuple l)) /\
  (forall i, i < length (tuple l) ->
     get_index (LockedTuple is_const) (mkLocker true (tuple l)) i = Some (mkRef i is_const) /\
     deref (mkLocker true (tuple l)) (mkRef i is_const) = nth_error (tuple l) i) /\
  (forall i, length (tuple l) <= i ->
     get_index (LockedTuple is_const) (mkLocker true (tuple l)) i = None) /\
  (forall u i, count_ty u (field_types l) = 1 -> nth_error (field_types l) i = Some u ->
     get_type (LockedTuple is_const) (mkLocker true (tuple l)) u = Some (mkRef i is_const) /\
     exists v, deref (mkLocker true (tuple l)) (mkRef i is_const) = Some v /\ vty v = u) /\
  (forall i v, is_const = true -> assign (mkLocker true (tuple l)) (mkRef i is_const) v = None) /\
  (forall i v old, is_const = false -> nth_error (tuple l) i = Some old -> vty old = vty v ->
     exists l'', assign (mkLocker true (tuple l)) (mkRef i is_const) v = Some l'' /\
                 deref l'' (mkRef i false) = Some v /\ deref l'' (mkRef i true) = Some v).
Proof.
  intros Hh Hn.
  split.
  { unfold lock. rewrite Hh.
    destruct (tuple l) as [| v [| v' vs]]; [reflexivity | simpl in Hn; lia | reflexivity]. }
  split.
  { intros i Hi. unfold get_index, deref; simpl.
    apply Nat.ltb_lt in Hi. rewrite Hi. split; reflexivity. }
  split.
  { intros i Hi. unfold get_index; simpl.
    apply Nat.ltb_ge in Hi. rewrite Hi. reflexivity. }
  split.
  { intros u i Hc Hi. unfold get_type, field_types in *; simpl.
    rewrite Hc, (index_unique u _ i Hc Hi). split; [reflexivity |].
    unfold deref; simpl. rewrite nth_error_map in Hi.
    destruct (nth_error (tuple l) i) as [v |]; [| discriminate].
    injection Hi as Hv. exists v. split; [reflexivity | exact Hv]. }
  split.
  { intros i v ->. reflexivity. }
  intros i v old -> Hold Hty.
  unfold assign; simpl. rewrite Hold, Hty, ty_eqb_refl.
  eexists; split; [reflexivity |].
  unfold deref; simpl. rewrite (replace_nth_same i v old (tuple l) Hold).
  split; reflexivity.
Qed.

(** With one field, [lock()] yields the single-value accessor instead: its
    [get()] is a reference to that field, and it has no [get<I>()]. *)
Lemma locker_single_access (is_const : bool) (v : value) :
  lock is_const (mkLocker false [v]) =
    Some (LockedSingle is_const (mkRef 0 is_const), mkLocker true [v]) /\
  get_single (LockedSingle is_const (mkRef 0 is_const)) = Some (mkRef 0 is_const) /\
  deref (mkLocker true [v]) (mkRef 0 is_const) = Some v /\
  get_index (LockedSingle is_const (mkRef 0 is_const)) (mkLocker true [v]) 0 = None.
Proof. repeat split. Qed.

Lemma ty_eqb_true (a b : ty) : ty_eqb a b = true -> a = b.
Proof. destruct a, b; simpl; congruence. Qed.

Lemma replace_nth_other (i j : nat) (v : value) (vs : list value) :
  j <> i -> nth_error (replace_nth i v vs) j = nth_error vs j.
Proof.
  revert i j; induction vs as [| w vs IH]; intros [| i] [| j] Hne; simpl;
    try reflexivity; try (exfalso; lia).
  apply IH. lia.
Qed.

Lemma replace_nth_types (i : nat) (v old : value) (vs : list value) :
  nth_error vs i = Some old -> vty old = vty v ->
  map vty (replace_nth i v vs) = map vty vs.
Proof.
  revert i; induction vs as [| w vs IH]; intros [| i] H Ht; simpl in *;
    try discriminate.
  - injection H as ->. rewrite Ht. reflexivity.
  - rewrite (IH i H Ht). reflexivity.
Qed.

(** X: a write through a mutable reference changes exactly the referenced
    field: the other fields, the field types and the mutex are unchanged. *)
Theorem assign_frame (l l' : locker_t) (r : ref) (v : value) :
  assign l r v = Some l' ->
  mutex_held l' = mutex_held l /\
  field_types l' = field_types l /\
  nth_error (tuple l') (ref_index r) = Some v /\
  (forall j, j <> ref_index r -> nth_error (tuple l') j = nth_error (tuple l) j).
Proof.
  destruct r as [i cst]. unfold assign; simpl.
  destruct cst; [discriminate |].
  destruct (nth_error (tuple l) i) as [old |] eqn:Hold; [| discriminate].
  destruct (ty_eqb (vty old) (vty v)) eqn:Ht; [| discriminate].
  intros H; injection H as <-. apply ty_eqb_true in Ht.
  split; [reflexivity |].
  split; [unfold field_types; simpl; exact (replace_nth_types i v old _ Hold Ht) |].
  split; [exact (replace_nth_same i v old _ Hold) |].
  intros j Hj. apply replace_nth_other. exact Hj.
Qed.

(** A locker with two fields, a [nat] and a [bool]. *)
Definition pair_locker : locker_t := mkLocker false [mkValue TNat 5; mkValue TBool true].

Lemma locker_lock_access_witness :
  (mutex_held pair_locker = false /\ length (tuple pair_locker) <> 1) /\
  get_type (LockedTuple false) (mkLocker true (tuple pair_locker)) TBool =
    Some (mkRef 1 false).
Proof.
  split; [split; [reflexivity | discriminate] |].
  destruct (locker_lock_access false pair_locker eq_refl ltac:(discriminate))
    as (_ & _ & _ & Hty & _).
  apply (proj1 (Hty TBool 1 eq_refl eq_refl)).
Defined.

Lemma assign_frame_witness :
  assign pair_locker (mkRef 0 false) (mkValue TNat 8) =
    Some (mkLocker false [mkValue TNat 8; mkValue TBool true]) /\
  nth_error (tuple (mkLocker false [mkValue TNat 8; mkValue TBool true])) 1 =
    nth_error (tuple pair_locker) 1.
Proof.
  split; [reflexivity |].
  apply (proj2 (proj2 (proj2 (assign_frame pair_locker _ (mkRef 0 false) (mkValue TNat 8)
           eq_refl))) 1). discriminate.
Defined.

End LockerFacts.
